(** * The user dashboard script (app.py): fetch, persist, reload, derive, aggregate

    A shallow embedding of the pipeline of [src/app.py].  The script is one
    linear module-level program; the stages the specification names are the
    blocks
      - fetch        lines 81-90   (requests.get, status check, st.stop)
      - replaceAll   lines 95-119  (sqlite3: DROP, CREATE, INSERT OR REPLACE, commit, close)
      - loadAll      lines 124-126 (pd.read_sql_query)
      - enrich       lines 131-132 (the two derived columns)
      - aggregate    lines 143-158, 197, 258 (len, nunique, mean, max, value_counts, sort_values/head)

    Modelling conventions.
      - A Python [str] is a [string]; one [ascii] stands for one character
        (code points below 256), so [String.length] is Python's [len].
      - SQL NULL / Python [None] in a text column is [None : option string].
      - A DataFrame is the list of its rows, a Series the list of its values.
      - NaN, pandas' missing number, is [None] in [option Q] / [option nat].
      - The SQLite file, the open connection, the page and the call counters
        are fields of an explicit [world]; the script is a state-and-exception
        computation over it. *)

From Stdlib Require Import String Ascii.
From Stdlib Require Import List Bool Arith ZArith Lia.
From Stdlib Require Import Permutation Sorted QArith.
Import ListNotations.

Local Open Scope Z_scope.

(** ** Python strings *)

Module PyStr.

(** [c.lower()] for one character of the Latin-1 range: A-Z and the
    accented capitals U+00C0..U+00DE (U+00D7, the multiplication sign, is
    not a letter) move up by 32; every other character is unchanged. *)
Definition lower_char (c : ascii) : ascii :=
  let n := nat_of_ascii c in
  if ((65 <=? n) && (n <=? 90))%nat then ascii_of_nat (n + 32)
  else if ((192 <=? n) && (n <=? 222) && negb (n =? 215))%nat then ascii_of_nat (n + 32)
  else c.

(** [s.lower()] *)
Fixpoint lower (s : string) : string :=
  match s with
  | EmptyString => EmptyString
  | String c s' => String (lower_char c) (lower s')
  end.

(** [sep in s], for a one-character [sep] *)
Fixpoint contains (sep : ascii) (s : string) : bool :=
  match s with
  | EmptyString => false
  | String c s' => Ascii.eqb c sep || contains sep s'
  end.

(** [s.split(sep)], for a one-character [sep]: the pieces between the
    occurrences of [sep], in order; the list is never empty. *)
Fixpoint split (sep : ascii) (s : string) : list string :=
  match s with
  | EmptyString => [EmptyString]
  | String c s' =>
      if Ascii.eqb c sep then EmptyString :: split sep s'
      else match split sep s' with
           | [] => [String c EmptyString]
           | piece :: pieces => String c piece :: pieces
           end
  end.

(** [l[-1]].  On an empty list Python raises IndexError; [split] never
    returns one ([split_not_nil]), so the default is never taken. *)
Definition item_last (l : list string) : string := List.last l EmptyString.

(** [str(x)] for a cell of an object column, as [Series.astype(str)]
    applies it: text is kept, [None] becomes the four characters None. *)
Definition astype_str (x : option string) : string :=
  match x with
  | Some s => s
  | None => "None"%string
  end.

(** [len(s)] *)
Definition len (s : string) : nat := String.length s.

End PyStr.

(** ** Records *)

(** One row of the [users] table (lines 100-107), which is also what the
    loop of lines 110-116 reads from one payload object with [u.get(...)]:
    an integer [id], and five text fields that may be missing. *)
Record user : Type := mk_user {
  id : Z;
  name : option string;
  username : option string;
  email : option string;
  phone : option string;
  website : option string
}.

(** A row of [df] after lines 131-132. *)
Record enriched : Type := mk_enriched {
  row : user;
  name_length : nat;
  email_domain : option string
}.

(** ** Enricher (lines 131-132) *)

(** The lambda of line 132:
    [lambda x: x.split('@')[-1].lower() if '@' in str(x) else None] *)
Definition domain_of (x : string) : option string :=
  if PyStr.contains "@"%char x
  then Some (PyStr.lower (PyStr.item_last (PyStr.split "@"%char x)))
  else None.

(** [df['name'].astype(str).apply(len)] *)
Definition name_length_column (df : list user) : list nat :=
  map PyStr.len (map PyStr.astype_str (map name df)).

(** [df['email'].astype(str).apply(lambda ...)] *)
Definition email_domain_column (df : list user) : list (option string) :=
  map domain_of (map PyStr.astype_str (map email df)).

(** Assigning the two Series as new columns: values meet rows by position. *)
Definition enrich (df : list user) : list enriched :=
  map (fun '(u, (n, d)) => mk_enriched u n d)
      (combine df (combine (name_length_column df) (email_domain_column df))).

(** What [enrich] does to one row. *)
Definition enrich_row (u : user) : enriched :=
  mk_enriched u (PyStr.len (PyStr.astype_str (name u)))
                (domain_of (PyStr.astype_str (email u))).

(** ** The pandas and numpy primitives the script calls *)

Module Pandas.

(** [np.take] / positional indexing [a[idx]].  numpy raises IndexError on
    a position outside the array; such a position contributes nothing
    here, and the indexers built below are always in range. *)
Definition take {A : Type} (idx : list nat) (l : list A) : list A :=
  flat_map (fun i => match nth_error l i with Some x => [x] | None => [] end) idx.

(** The contract of [ndarray.argsort(kind=...)]: a rearrangement of the
    positions [0 .. len-1] along which the values are in ascending order.
    Nothing is promised about the order of equal values: pandas' default
    [kind='quicksort'] is documented as not stable, and each [kind] is one
    inhabitant of this interface. *)
Record sort_kind : Type := mk_sort_kind {
  argsort : list Z -> list nat;
  argsort_perm : forall v, Permutation (argsort v) (seq 0 (length v));
  argsort_sorted : forall v,
    StronglySorted (fun i j => nth i v 0 <= nth j v 0) (argsort v)
}.

(** [pandas.core.sorting.nargsort(items, kind, ascending=False)] on a
    column without missing values: reverse values and positions, argsort
    ascending, map back, reverse again. *)
Definition nargsort_desc (k : sort_kind) (items : list Z) : list nat :=
  rev (take (argsort k (rev items)) (rev (seq 0 (length items)))).

(** [df.sort_values(by, ascending=False)] for an integer column [by]. *)
Definition sort_values_desc {A : Type} (k : sort_kind) (by_ : A -> nat) (df : list A) : list A :=
  take (nargsort_desc k (map (fun r => Z.of_nat (by_ r)) df)) df.

(** [df.head(n)] *)
Definition head {A : Type} (n : nat) (df : list A) : list A := firstn n df.

(** Membership test of the hash table behind [unique] / [value_counts]. *)
Fixpoint mem (x : string) (l : list string) : bool :=
  match l with
  | [] => false
  | y :: l' => String.eqb x y || mem x l'
  end.

(** Distinct values in order of first appearance, given those already seen. *)
Fixpoint unique_from (seen : list string) (l : list string) : list string :=
  match l with
  | [] => []
  | x :: l' => if mem x seen then unique_from seen l'
               else x :: unique_from (x :: seen) l'
  end.

Definition unique (l : list string) : list string := unique_from [] l.

(** [dropna]: the values of an object column that are not [None]. *)
Fixpoint remove_na (col : list (option string)) : list string :=
  match col with
  | [] => []
  | Some s :: col' => s :: remove_na col'
  | None :: col' => remove_na col'
  end.

(** [Series.nunique()] with its default [dropna=True]: missing values are
    removed before the distinct values are counted. *)
Definition nunique (col : list (option string)) : nat :=
  length (unique (remove_na col)).

(** How often [x] occurs. *)
Fixpoint occurrences (x : string) (l : list string) : nat :=
  match l with
  | [] => 0%nat
  | y :: l' => (if String.eqb x y then 1 else 0) + occurrences x l'
  end.

(** The hash-table pass of [value_counts] with its default [dropna=True]:
    each distinct present value with its number of occurrences. *)
Definition value_count (col : list (option string)) : list (string * nat) :=
  let present := remove_na col in
  map (fun key => (key, occurrences key present)) (unique present).

(** [Series.value_counts()]: the counts, largest first
    ([sort=True, ascending=False], default sort kind). *)
Definition value_counts (k : sort_kind) (col : list (option string)) : list (string * nat) :=
  sort_values_desc k snd (value_count col).

(** Sum of an integer column. *)
Definition sum (col : list nat) : nat := fold_right Nat.add 0%nat col.

(** [Series.mean()]: NaN on an empty column, else sum over count (the
    exact quotient; the script only prints it rounded to one decimal). *)
Definition mean (col : list nat) : option Q :=
  match col with
  | [] => None
  | _ :: _ => Some (Z.of_nat (sum col) # Pos.of_nat (length col))
  end.

(** [Series.max()]: NaN on an empty column. *)
Definition max (col : list nat) : option nat :=
  match col with
  | [] => None
  | x :: col' => Some (fold_left Nat.max col' x)
  end.

(** One pass of insertion argsort: position [i] goes in front of the first
    position [j] whose value it may precede. *)
Fixpoint insert_by (before : Z -> Z -> bool) (v : list Z) (i : nat) (sorted : list nat) : list nat :=
  match sorted with
  | [] => [i]
  | j :: rest => if before (nth i v 0) (nth j v 0) then i :: j :: rest
                 else j :: insert_by before v i rest
  end.

Definition insertion_argsort (before : Z -> Z -> bool) (v : list Z) : list nat :=
  fold_right (insert_by before v) [] (seq 0 (length v)).

End Pandas.

(** ** Aggregator *)

(** The values the script hands to the page (lines 143, 150, 157, 158, 197, 258). *)
Record AggregateView : Type := mk_view {
  total_count : nat;
  distinct_domain_count : nat;
  mean_name_length : option Q;
  max_name_length : option nat;
  domain_counts : list (string * nat);
  top_n_by_name_length : list enriched
}.

(** [dom_counts = df['email_domain'].value_counts()] (line 197) *)
Definition dom_counts (k : Pandas.sort_kind) (df : list enriched) : list (string * nat) :=
  Pandas.value_counts k (map email_domain df).

(** [top_names = df.sort_values('name_length', ascending=False).head(10)] (line 258) *)
Definition top_names (k : Pandas.sort_kind) (df : list enriched) : list enriched :=
  Pandas.head 10 (Pandas.sort_values_desc k name_length df).

Definition aggregate (k : Pandas.sort_kind) (df : list enriched) : AggregateView :=
  {| total_count := length df;                                        (* len(df) *)
     distinct_domain_count := Pandas.nunique (map email_domain df);   (* df['email_domain'].nunique() *)
     mean_name_length := Pandas.mean (map name_length df);            (* df['name_length'].mean() *)
     max_name_length := Pandas.max (map name_length df);              (* df['name_length'].max() *)
     domain_counts := dom_counts k df;
     top_n_by_name_length := top_names k df |}.

(** ** The SQLite table *)

Module Sqlite.

(** [INSERT OR REPLACE INTO users ...] on a table whose [id] column is
    [INTEGER PRIMARY KEY], that is, the rowid: the table is a B-tree keyed
    by [id]; a row with the same key is replaced, a new key takes its place
    in key order. *)
Fixpoint put (r : user) (t : list user) : list user :=
  match t with
  | [] => [r]
  | x :: t' =>
      if id r <? id x then r :: x :: t'
      else if id r =? id x then r :: t'
      else x :: put r t'
  end.

(** A Python int the sqlite3 module can bind to an INTEGER column: a signed
    64-bit value. *)
Definition int64 (z : Z) : bool := (- 2 ^ 63 <=? z) && (z <? 2 ^ 63).

(** The rows of a table after the statements of one insert loop. *)
Definition put_all (users : list user) (t : list user) : list user :=
  fold_left (fun t u => put u t) users t.

End Sqlite.

(** ** The world the script runs in *)

(** What can be raised. *)
Inductive exn : Type :=
| RequestException    (* requests.get: no connection, timeout *)
| JSONDecodeError     (* response.json() on a body that is not JSON *)
| OverflowError       (* sqlite3: Python int too large to convert to SQLite INTEGER *)
| OperationalError    (* sqlite3: the engine fails (disk, lock, missing table) *)
| ProgrammingError    (* sqlite3: operation on a closed connection *)
| DatabaseError.      (* pandas: the query could not be executed *)

(** How a run ends early. [st.stop()] raises streamlit's StopException, which
    derives from BaseException: [except Exception] does not catch it. *)
Inductive halt : Type :=
| StopException
| Uncaught (e : exn).

(** What the page shows. *)
Inductive widget : Type :=
| Header                                         (* lines 62-70: title, subtitle, author *)
| Error_status (status_code : Z)                 (* line 85 *)
| Error_connection (e : exn)                     (* line 89 *)
| Dashboard (v : AggregateView) (df : list enriched)   (* lines 137-328: metrics, charts, tables *)
| Success.                                       (* lines 333-338 *)

(** An open sqlite3 connection: [pending] holds the table as the open
    transaction sees it, [None] when no transaction is open. *)
Record connection : Type := mk_connection {
  pending : option (list user)
}.

Record world : Type := mk_world {
  disk : option (list user);   (* committed [users] table of usuarios3.db; [None]: no such table *)
  conn : option connection;    (* the script's [conn], [None] when closed *)
  page : list widget;          (* what has been rendered, oldest first *)
  http_calls : nat;            (* GET requests sent *)
  sql_calls : nat              (* calls that reached the storage engine *)
}.

(** What the endpoint answers to the one GET. *)
Inductive reply : Type :=
| No_reply                                              (* transport failure *)
| Reply (status_code : Z) (json : option (list user)).  (* [json = None]: the body does not parse *)

(** The part of a run the script does not choose. *)
Record env : Type := mk_env {
  api : reply;
  engine_fails : nat -> bool    (* whether the n-th storage call raises *)
}.

(** ** State and exceptions *)

Inductive outcome (A : Type) : Type :=
| Returns (a : A)
| Halts (h : halt).
Arguments Returns {A} a.
Arguments Halts {A} h.

Definition M (A : Type) : Type := world -> outcome A * world.

Definition ret {A : Type} (a : A) : M A := fun s => (Returns a, s).

Definition bind {A B : Type} (c : M A) (f : A -> M B) : M B :=
  fun s => match c s with
           | (Returns a, s') => f a s'
           | (Halts h, s') => (Halts h, s')
           end.

Definition raise {A : Type} (e : exn) : M A := fun s => (Halts (Uncaught e), s).

(** [try: body  except Exception as e: handler(e)] *)
Definition try_except {A : Type} (body : M A) (handler : exn -> M A) : M A :=
  fun s => match body s with
           | (Halts (Uncaught e), s') => handler e s'
           | r => r
           end.

Declare Scope script_scope.
Delimit Scope script_scope with script.
Notation "x <- c1 ;; c2" := (bind c1 (fun x => c2))
  (at level 100, c1 at next level, right associativity) : script_scope.
Notation "c1 ;; c2" := (bind c1 (fun _ => c2))
  (at level 100, right associativity) : script_scope.
Local Open Scope script_scope.

(** [for x in xs: body(x)] *)
Fixpoint for_each {A : Type} (xs : list A) (body : A -> M unit) : M unit :=
  match xs with
  | [] => ret tt
  | x :: xs' => body x ;; for_each xs' body
  end.

(** *** streamlit *)

Definition st_write (x : widget) : M unit :=
  fun s => (Returns tt, mk_world (disk s) (conn s) (page s ++ [x]) (http_calls s) (sql_calls s)).

Definition st_stop {A : Type} : M A := fun s => (Halts StopException, s).

(** *** requests *)

Definition requests_get (e : env) : M (Z * option (list user)) :=
  fun s =>
    let s' := mk_world (disk s) (conn s) (page s) (S (http_calls s)) (sql_calls s) in
    match api e with
    | No_reply => (Halts (Uncaught RequestException), s')
    | Reply status_code json => (Returns (status_code, json), s')
    end.

Definition response_json (json : option (list user)) : M (list user) :=
  match json with
  | Some users => ret users
  | None => raise JSONDecodeError
  end.

(** *** sqlite3 *)

(** Every call that reaches the engine may fail there. *)
Definition engine (e : env) : M unit :=
  fun s =>
    let s' := mk_world (disk s) (conn s) (page s) (http_calls s) (S (sql_calls s)) in
    if engine_fails e (sql_calls s) then (Halts (Uncaught OperationalError), s')
    else (Returns tt, s').

Definition set_conn (c : option connection) : M unit :=
  fun s => (Returns tt, mk_world (disk s) c (page s) (http_calls s) (sql_calls s)).

Definition set_disk (d : option (list user)) : M unit :=
  fun s => (Returns tt, mk_world d (conn s) (page s) (http_calls s) (sql_calls s)).

(** The open connection, or ProgrammingError on a closed one. *)
Definition the_conn : M connection :=
  fun s => match conn s with
           | Some c => (Returns c, s)
           | None => (Halts (Uncaught ProgrammingError), s)
           end.

Definition the_disk : M (option (list user)) := fun s => (Returns (disk s), s).

(** [sqlite3.connect(DB_NAME)] *)
Definition connect (e : env) : M unit :=
  engine e ;; set_conn (Some (mk_connection None)).

(** [cur.execute('DROP TABLE IF EXISTS users;')].  The sqlite3 module opens
    a transaction only in front of INSERT, UPDATE, DELETE and REPLACE; this
    statement runs with none open and takes effect on the file at once. *)
Definition execute_drop (e : env) : M unit :=
  the_conn ;; engine e ;; set_disk None.

(** [cur.execute('CREATE TABLE IF NOT EXISTS users (...)')], likewise. *)
Definition execute_create (e : env) : M unit :=
  the_conn ;; engine e ;;
  d <- the_disk ;;
  match d with
  | None => set_disk (Some [])
  | Some _ => ret tt
  end.

(** [cur.execute('INSERT OR REPLACE INTO users ... VALUES (?,...)', (u.get('id'), ...))]:
    the parameters are bound first, then the statement runs inside the
    transaction, which it opens if none is open. *)
Definition execute_insert (e : env) (u : user) : M unit :=
  c <- the_conn ;;
  (if Sqlite.int64 (id u) then ret tt else raise OverflowError) ;;
  engine e ;;
  d <- the_disk ;;
  match (match pending c with Some t => Some t | None => d end) with
  | None => raise OperationalError
  | Some t => set_conn (Some (mk_connection (Some (Sqlite.put u t))))
  end.

(** [conn.commit()] *)
Definition commit (e : env) : M unit :=
  c <- the_conn ;;
  match pending c with
  | None => ret tt
  | Some t => engine e ;; set_disk (Some t) ;; set_conn (Some (mk_connection None))
  end.

(** [conn.close()]: what was not committed is rolled back. *)
Definition close : M unit := set_conn None.

(** [pd.read_sql_query('SELECT * FROM users', conn)]: a scan of the table
    B-tree, which yields the rows in key order. *)
Definition read_sql_query (e : env) : M (list user) :=
  the_conn ;; engine e ;;
  d <- the_disk ;;
  match d with
  | None => raise DatabaseError
  | Some t => ret t
  end.

(** ** The script *)

(** Lines 81-90. *)
Definition fetch (e : env) : M (list user) :=
  try_except
    (response <- requests_get e ;;
     (if negb (fst response =? 200)
      then st_write (Error_status (fst response)) ;; st_stop
      else ret tt) ;;
     response_json (snd response))
    (fun ex => st_write (Error_connection ex) ;; st_stop).

(** Lines 95-119. *)
Definition replaceAll (e : env) (users : list user) : M unit :=
  connect e ;;
  execute_drop e ;;
  execute_create e ;;
  for_each users (execute_insert e) ;;
  commit e ;;
  close.

(** Lines 124-126. *)
Definition loadAll (e : env) : M (list user) :=
  connect e ;;
  df <- read_sql_query e ;;
  close ;;
  ret df.

(** The whole script, lines 62-338. *)
Definition run (k : Pandas.sort_kind) (e : env) : M unit :=
  st_write Header ;;
  users <- fetch e ;;
  replaceAll e users ;;
  df <- loadAll e ;;
  let df := enrich df in
  st_write (Dashboard (aggregate k df) df) ;;
  st_write Success.

(** ** The specification's wording, for comparison with the code *)

Definition option_string_dec (x y : option string) : {x = y} + {x <> y}.
Proof. decide equality. apply string_dec. Defined.

(** Follows the spec's words: "number of unique email_domain values
    (absent-domain counts as one distinct value if present)". *)
Definition claimed_distinct_domain_count (df : list enriched) : nat :=
  length (nodup option_string_dec (map email_domain df)).



(** The specification's error taxonomy for the Fetcher, as the message a
    failed fetch puts on the page: bad-status (any status other than 200),
    transport-failure, malformed-payload; [None] when the fetch succeeds. *)
Definition fetch_error (r : reply) : option widget :=
  match r with
  | No_reply => Some (Error_connection RequestException)
  | Reply status_code json =>
      if status_code =? 200
      then match json with
           | Some _ => None
           | None => Some (Error_connection JSONDecodeError)
           end
      else Some (Error_status status_code)
  end.

(** ** Auxiliary notions of the statements and proofs *)



(** The records of [df] whose [email_domain] is the absent marker. *)
Definition absent_domain (df : list enriched) : list enriched :=
  filter (fun r => match email_domain r with None => true | Some _ => false end) df.

(** Rows in ascending order of their key. *)
Definition by_id (a b : user) : Prop := id a < id b.

(** The table an insert works on: the open transaction's, else the file's. *)
Definition working (p : option (list user)) (d : option (list user)) : option (list user) :=
  match p with
  | Some t => Some t
  | None => d
  end.

(** A computation that leaves an open connection open, however it ends. *)
Definition keeps_open {A : Type} (c : M A) : Prop :=
  forall s, conn s <> None -> conn (snd (c s)) <> None.

(** A computation that, started with an open connection, closes it when it
    returns and leaves it open when it halts. *)
Definition closes_on_return_only (c : M unit) : Prop :=
  forall s, conn s <> None ->
    match c s with
    | (Returns _, s') => conn s' = None
    | (Halts _, s') => conn s' <> None
    end.

(** ** Per-domain mean (line 239) *)

(** Whether a row belongs to the group of domain [d]. *)
Definition in_group (d : string) (r : enriched) : bool :=
  match email_domain r with
  | Some d' => String.eqb d d'
  | None => false
  end.

(** One step of sorting the group keys: text order is Python's, character
    by character by code point, a proper prefix first. *)
Fixpoint insert_key (key : string) (sorted : list string) : list string :=
  match sorted with
  | [] => [key]
  | x :: rest => if String.leb key x then key :: x :: rest
                 else x :: insert_key key rest
  end.

(** The group keys in ascending order ([groupby(..., sort=True)]).  The keys
    are distinct, so every sorting algorithm gives this list. *)
Definition sort_keys (keys : list string) : list string :=
  fold_right insert_key [] keys.

(** [avg_length = df.groupby('email_domain')['name_length'].mean().reset_index()]
    (line 239) on a frame with at least one row: one row per present
    domain (rows with a missing domain are dropped, [dropna=True]), keys
    ascending, with the mean [name_length] of the group. *)
Definition avg_length (df : list enriched) : list (string * option Q) :=
  map (fun d => (d, Pandas.mean (map name_length (filter (in_group d) df))))
      (sort_keys (Pandas.unique (Pandas.remove_na (map email_domain df)))).

Create HintDb scope.

(** * Properties *)

(** ** Strings *)

Section SplitFacts.

Variable sep : ascii.

Lemma split_not_nil (s : string) : PyStr.split sep s <> [].
Proof.
  destruct s as [|c s]; simpl; [discriminate|].
  destruct (Ascii.eqb c sep); [discriminate|].
  destruct (PyStr.split sep s); discriminate.
Qed.

Lemma split_without_sep (s : string) :
  PyStr.contains sep s = false -> PyStr.split sep s = [s].
Proof.
  induction s as [|c s IH]; simpl; intros H; [reflexivity|].
  apply orb_false_iff in H as [Hc Hs].
  rewrite Hc, (IH Hs). reflexivity.
Qed.

Lemma split_app (a b : string) :
  PyStr.split sep (a ++ String sep b) = PyStr.split sep a ++ PyStr.split sep b.
Proof.
  induction a as [|c a IH]; simpl.
  - rewrite Ascii.eqb_refl. reflexivity.
  - destruct (Ascii.eqb c sep); rewrite IH.
    + reflexivity.
    + pose proof (split_not_nil a) as Hne.
      destruct (PyStr.split sep a) as [|p ps]; [contradiction|reflexivity].
Qed.

(** A string that holds the separator ends in a separator-free piece. *)
Lemma last_sep_decomposition (s : string) :
  PyStr.contains sep s = true ->
  exists pre suf, s = (pre ++ String sep suf)%string /\ PyStr.contains sep suf = false.
Proof.
  induction s as [|c s IH]; simpl; [discriminate|].
  intros H.
  destruct (PyStr.contains sep s) eqn:Hs.
  - destruct (IH eq_refl) as (pre & suf & -> & Hsuf).
    exists (String c pre), suf. split; [reflexivity|exact Hsuf].
  - rewrite orb_false_r in H. apply Ascii.eqb_eq in H. subst c.
    exists EmptyString, s. split; [reflexivity|exact Hs].
Qed.

Lemma item_last_split (pre suf : string) :
  PyStr.contains sep suf = false ->
  PyStr.item_last (PyStr.split sep (pre ++ String sep suf)) = suf.
Proof.
  intros H. unfold PyStr.item_last.
  rewrite split_app, (split_without_sep _ H).
  apply last_last.
Qed.

End SplitFacts.

Lemma domain_of_with_at (pre suf : string) :
  PyStr.contains "@" suf = false ->
  domain_of (pre ++ String "@" suf) = Some (PyStr.lower suf).
Proof.
  intros H. unfold domain_of.
  assert (Hc : PyStr.contains "@" (pre ++ String "@" suf) = true).
  { clear H. induction pre as [|c pre IH]; simpl.
    - reflexivity.
    - rewrite IH. apply orb_true_r. }
  rewrite Hc, (item_last_split _ _ _ H). reflexivity.
Qed.

Lemma domain_of_without_at (x : string) :
  PyStr.contains "@" x = false -> domain_of x = None.
Proof. intros H. unfold domain_of. rewrite H. reflexivity. Qed.

(** ** Enricher *)

Lemma combine_columns {A B C : Type} (f : A -> B) (g : A -> C) (l : list A) :
  combine l (combine (map f l) (map g l)) = map (fun a => (a, (f a, g a))) l.
Proof. induction l as [|a l IH]; simpl; [reflexivity|now rewrite IH]. Qed.

(** The column-wise derivation is row-wise [enrich_row]. *)
Lemma enrich_rows (df : list user) : enrich df = map enrich_row df.
Proof.
  unfold enrich, name_length_column, email_domain_column.
  rewrite !map_map, combine_columns, map_map. reflexivity.
Qed.

Lemma enrich_nth (df : list user) (i : nat) (u : user) :
  nth_error df i = Some u -> nth_error (enrich df) i = Some (enrich_row u).
Proof. intros H. rewrite enrich_rows. now apply map_nth_error. Qed.


(** ** Sorted lists *)

Section SortedFacts.

Context {A B : Type}.

Lemma StronglySorted_map (R : B -> B -> Prop) (f : A -> B) (l : list A) :
  StronglySorted (fun a b => R (f a) (f b)) l -> StronglySorted R (map f l).
Proof.
  induction 1 as [|a l _ IH Hall]; simpl; constructor; [exact IH|].
  apply Forall_map. exact Hall.
Qed.

Lemma StronglySorted_within (R R' : A -> A -> Prop) (l : list A) :
  (forall a b, In a l -> In b l -> R a b -> R' a b) ->
  StronglySorted R l -> StronglySorted R' l.
Proof.
  intros Himp Hs. induction Hs as [|a l _ IH Hall]; constructor.
  - apply IH. intros x y Hx Hy. apply Himp; now right.
  - rewrite Forall_forall in *. intros y Hy.
    apply Himp; [now left|now right|now apply Hall].
Qed.

Lemma StronglySorted_snoc (R : A -> A -> Prop) (l : list A) (x : A) :
  StronglySorted R l -> Forall (fun a => R a x) l -> StronglySorted R (l ++ [x]).
Proof.
  induction 1 as [|a l _ IH Hall]; simpl; intros Hx.
  - repeat constructor.
  - inversion Hx as [|? ? Hax Hlx]; subst. constructor.
    + now apply IH.
    + apply Forall_app. split; [exact Hall|]. repeat constructor. exact Hax.
Qed.

Lemma StronglySorted_rev (R : A -> A -> Prop) (l : list A) :
  StronglySorted R l -> StronglySorted (fun a b => R b a) (rev l).
Proof.
  induction 1 as [|a l _ IH Hall]; simpl; [constructor|].
  apply StronglySorted_snoc; [exact IH|].
  apply Forall_rev. exact Hall.
Qed.



End SortedFacts.

(** ** Positional indexing *)

Section TakeFacts.

Context {A : Type}.

Lemma take_in_range (d : A) (idx : list nat) (l : list A) :
  Forall (fun i => (i < length l)%nat) idx ->
  Pandas.take idx l = map (fun i => nth i l d) idx.
Proof.
  unfold Pandas.take. induction 1 as [|i idx Hi _ IH]; simpl; [reflexivity|].
  rewrite IH. destruct (nth_error l i) as [x|] eqn:E.
  - rewrite (nth_error_nth _ _ d E). reflexivity.
  - apply nth_error_None in E. lia.
Qed.

Lemma take_seq_suffix (l1 l2 : list A) :
  Pandas.take (seq (length l1) (length l2)) (l1 ++ l2) = l2.
Proof.
  revert l1. induction l2 as [|x l2 IH]; intros l1; [reflexivity|].
  simpl. unfold Pandas.take in *. simpl.
  rewrite nth_error_app2, Nat.sub_diag by lia. simpl. f_equal.
  specialize (IH (l1 ++ [x])).
  rewrite length_app, Nat.add_1_r, <- app_assoc in IH. exact IH.
Qed.

Lemma take_seq_all (l : list A) : Pandas.take (seq 0 (length l)) l = l.
Proof. exact (take_seq_suffix [] l). Qed.

(** Indexing by a rearrangement of all positions rearranges the list. *)
Lemma take_permutes (idx : list nat) (l : list A) :
  Permutation idx (seq 0 (length l)) -> Permutation (Pandas.take idx l) l.
Proof.
  intros H. rewrite <- (take_seq_all l) at 2.
  unfold Pandas.take. apply Permutation_flat_map. exact H.
Qed.

End TakeFacts.

Lemma perm_seq_in_range (idx : list nat) (n : nat) :
  Permutation idx (seq 0 n) -> Forall (fun i => (i < n)%nat) idx.
Proof.
  intros H. apply Forall_forall. intros i Hi.
  apply (Permutation_in _ H), in_seq in Hi. lia.
Qed.

Lemma take_rev_seq (n : nat) (idx : list nat) :
  Forall (fun i => (i < n)%nat) idx ->
  Pandas.take idx (rev (seq 0 n)) = map (fun j => (n - 1 - j)%nat) idx.
Proof.
  intros H. rewrite (take_in_range 0%nat).
  - apply map_ext_in. intros j Hj.
    rewrite Forall_forall in H. specialize (H j Hj).
    rewrite rev_nth by (rewrite length_seq; exact H).
    rewrite length_seq, seq_nth by lia. lia.
  - rewrite length_rev, length_seq. exact H.
Qed.

(** ** sort_values *)

Section SortValues.

Variable k : Pandas.sort_kind.

Lemma argsort_in_range (v : list Z) :
  Forall (fun i => (i < length v)%nat) (Pandas.argsort k v).
Proof. apply perm_seq_in_range, Pandas.argsort_perm. Qed.

(** The descending indexer in closed form. *)
Lemma nargsort_desc_eq (v : list Z) :
  Pandas.nargsort_desc k v =
  rev (map (fun j => (length v - 1 - j)%nat) (Pandas.argsort k (rev v))).
Proof.
  unfold Pandas.nargsort_desc. f_equal. apply take_rev_seq.
  rewrite <- (length_rev v). apply argsort_in_range.
Qed.

Lemma nargsort_desc_perm (v : list Z) :
  Permutation (Pandas.nargsort_desc k v) (seq 0 (length v)).
Proof.
  unfold Pandas.nargsort_desc.
  rewrite <- Permutation_rev.
  transitivity (rev (seq 0 (length v))); [|symmetry; apply Permutation_rev].
  apply take_permutes.
  rewrite length_rev, length_seq, <- (length_rev v).
  apply Pandas.argsort_perm.
Qed.

Context {A : Type}.
Variable by_ : A -> nat.

Lemma sort_values_desc_perm (df : list A) :
  Permutation (Pandas.sort_values_desc k by_ df) df.
Proof.
  unfold Pandas.sort_values_desc. apply take_permutes.
  rewrite <- (length_map (fun r => Z.of_nat (by_ r)) df).
  apply nargsort_desc_perm.
Qed.

Lemma sort_values_desc_length (df : list A) :
  length (Pandas.sort_values_desc k by_ df) = length df.
Proof. apply Permutation_length, sort_values_desc_perm. Qed.

(** Largest key first. *)
Lemma sort_values_desc_sorted (df : list A) :
  StronglySorted (fun a b => (by_ b <= by_ a)%nat) (Pandas.sort_values_desc k by_ df).
Proof.
  destruct df as [|d df'] eqn:Edf.
  { pose proof (sort_values_desc_length []) as H.
    destruct (Pandas.sort_values_desc k by_ []); [constructor|discriminate]. }
  rewrite <- Edf. clear Edf df'.
  set (key := fun r => Z.of_nat (by_ r)).
  set (v := map key df).
  assert (Hn : length v = length df) by apply length_map.
  unfold Pandas.sort_values_desc. fold key. fold v.
  rewrite (take_in_range d).
  2:{ rewrite <- Hn. apply perm_seq_in_range, nargsort_desc_perm. }
  rewrite nargsort_desc_eq, map_rev, map_map.
  apply (StronglySorted_rev (fun a b => (by_ a <= by_ b)%nat)).
  apply StronglySorted_map.
  apply (StronglySorted_within (fun i j => nth i (rev v) 0 <= nth j (rev v) 0));
    [|apply Pandas.argsort_sorted].
  intros i j Hi Hj Hij.
  pose proof (argsort_in_range (rev v)) as Hr.
  rewrite Forall_forall, length_rev in Hr.
  assert (Hkey : forall x, (x < length v)%nat ->
            nth x (rev v) 0 = key (nth (length v - 1 - x) df d)).
  { intros x Hx. rewrite rev_nth by exact Hx.
    replace (length v - S x)%nat with (length v - 1 - x)%nat by lia.
    unfold v. rewrite (nth_indep _ 0 (key d)) by (fold v; lia).
    apply map_nth. }
  rewrite (Hkey i (Hr i Hi)), (Hkey j (Hr j Hj)) in Hij.
  unfold key in Hij. lia.
Qed.

End SortValues.

(** ** Two sort kinds *)

Section InsertionArgsort.

Variable before : Z -> Z -> bool.
Hypothesis before_le : forall a b, before a b = true -> a <= b.
Hypothesis not_before_ge : forall a b, before a b = false -> b <= a.
Variable v : list Z.

Lemma insert_by_perm (i : nat) (l : list nat) :
  Permutation (Pandas.insert_by before v i l) (i :: l).
Proof.
  induction l as [|j l IH]; simpl; [reflexivity|].
  destruct (before _ _); [reflexivity|].
  rewrite IH. apply perm_swap.
Qed.

Lemma insertion_fold_perm (l : list nat) :
  Permutation (fold_right (Pandas.insert_by before v) [] l) l.
Proof.
  induction l as [|i l IH]; simpl; [reflexivity|].
  rewrite insert_by_perm. now constructor.
Qed.

Lemma insert_by_sorted (i : nat) (l : list nat) :
  StronglySorted (fun i j => nth i v 0 <= nth j v 0) l ->
  StronglySorted (fun i j => nth i v 0 <= nth j v 0) (Pandas.insert_by before v i l).
Proof.
  induction 1 as [|j l Hs IH Hall]; simpl.
  - repeat constructor.
  - destruct (before _ _) eqn:E.
    + apply before_le in E. constructor; [now constructor|].
      constructor; [exact E|].
      eapply Forall_impl; [|exact Hall]. simpl. intros; lia.
    + apply not_before_ge in E. constructor; [exact IH|].
      eapply Permutation_Forall; [symmetry; apply insert_by_perm|].
      constructor; assumption.
Qed.

Lemma insertion_argsort_perm :
  Permutation (Pandas.insertion_argsort before v) (seq 0 (length v)).
Proof. apply insertion_fold_perm. Qed.

Lemma insertion_argsort_sorted :
  StronglySorted (fun i j => nth i v 0 <= nth j v 0) (Pandas.insertion_argsort before v).
Proof.
  unfold Pandas.insertion_argsort.
  induction (seq 0 (length v)) as [|i l IH]; simpl; [constructor|].
  now apply insert_by_sorted.
Qed.

End InsertionArgsort.

(** Insertion argsort that keeps equal values in input order
    ([kind='stable']). *)
Definition kind_stable : Pandas.sort_kind :=
  Pandas.mk_sort_kind (Pandas.insertion_argsort Z.leb)
    (insertion_argsort_perm Z.leb)
    (insertion_argsort_sorted Z.leb
       (fun a b H => proj1 (Z.leb_le a b) H)
       (fun a b H => Z.lt_le_incl _ _ (proj1 (Z.leb_gt a b) H))).


Lemma sort_values_desc_nil {A : Type} (k : Pandas.sort_kind) (by_ : A -> nat) :
  Pandas.sort_values_desc k by_ [] = [].
Proof.
  pose proof (sort_values_desc_length k by_ []) as H.
  destruct (Pandas.sort_values_desc k by_ []); [reflexivity|discriminate].
Qed.

(** ** A stable kind gives the order the specification words *)

Section StableOrder.

Context {A : Type}.
Variable by_ : A -> nat.

Let key (r : A) : Z := Z.of_nat (by_ r).















End StableOrder.


(** ** unique, nunique, value_counts *)

Lemma mem_In (x : string) (l : list string) : Pandas.mem x l = true <-> In x l.
Proof.
  induction l as [|y l IH]; simpl; [split; [discriminate|contradiction]|].
  rewrite orb_true_iff, IH, String.eqb_eq. split; intros [H|H]; auto.
Qed.

Lemma mem_cons_false (x y : string) (seen : list string) :
  Pandas.mem x (y :: seen) = false <-> x <> y /\ Pandas.mem x seen = false.
Proof. simpl. rewrite orb_false_iff, String.eqb_neq. reflexivity. Qed.

Lemma unique_from_In (d : string) (l seen : list string) :
  In d (Pandas.unique_from seen l) <-> In d l /\ Pandas.mem d seen = false.
Proof.
  revert seen. induction l as [|x l IH]; intros seen; simpl; [tauto|].
  destruct (Pandas.mem x seen) eqn:E.
  - rewrite IH. split; [tauto|]. intros [[->|H] Hd]; [congruence|tauto].
  - simpl. rewrite IH, mem_cons_false. split.
    + intros [->|(H & Hne & Hs)]; tauto.
    + intros [[->|H] Hs]; [tauto|].
      destruct (string_dec x d) as [->|Hne]; [tauto|].
      right. repeat split; auto.
Qed.

Lemma unique_from_NoDup (l seen : list string) : NoDup (Pandas.unique_from seen l).
Proof.
  revert seen. induction l as [|x l IH]; intros seen; simpl; [constructor|].
  destruct (Pandas.mem x seen); [apply IH|].
  constructor; [|apply IH].
  rewrite unique_from_In, mem_cons_false. tauto.
Qed.

Lemma remove_na_In (d : string) (col : list (option string)) :
  In d (Pandas.remove_na col) <-> In (Some d) col.
Proof.
  induction col as [|[s|] col IH]; simpl; [tauto| |].
  - rewrite IH. split; intros [H|H]; auto; left; congruence.
  - rewrite IH. split; [tauto|]. intros [H|H]; [discriminate|tauto].
Qed.

(** Missing values are the only ones [remove_na] leaves out. *)
Lemma remove_na_length (col : list (option string)) :
  (length (Pandas.remove_na col)
   + length (filter (fun x => match x with None => true | Some _ => false end) col)
   = length col)%nat.
Proof. induction col as [|[s|] col IH]; simpl; lia. Qed.

Lemma occurrences_fresh (x : string) (l seen : list string) :
  Pandas.mem x seen = false ->
  (Pandas.occurrences x l
   + length (filter (fun y => negb (Pandas.mem y (x :: seen))) l)
   = length (filter (fun y => negb (Pandas.mem y seen)) l))%nat.
Proof.
  intros Hx. induction l as [|y l IH]; simpl; [reflexivity|].
  destruct (String.eqb x y) eqn:Exy.
  - apply String.eqb_eq in Exy. subst y.
    rewrite String.eqb_refl, Hx. simpl in *. lia.
  - rewrite String.eqb_sym, Exy. simpl.
    destruct (Pandas.mem y seen); simpl in *; lia.
Qed.

Lemma occurrences_sum_from (l0 l seen : list string) :
  (forall y, In y l -> Pandas.occurrences y l0 = Pandas.occurrences y l) ->
  Pandas.sum (map (fun key => Pandas.occurrences key l0) (Pandas.unique_from seen l))
  = length (filter (fun y => negb (Pandas.mem y seen)) l).
Proof.
  intros H0.
  erewrite map_ext_in; [|intros y Hy; apply unique_from_In in Hy; apply H0, Hy].
  clear H0 l0. revert seen. induction l as [|x l IH]; intros seen; [reflexivity|].
  simpl. destruct (Pandas.mem x seen) eqn:E; simpl.
  - erewrite map_ext_in; [apply IH|].
    intros y Hy. apply unique_from_In in Hy as [_ Hy].
    destruct (String.eqb y x) eqn:Eyx; [|reflexivity].
    apply String.eqb_eq in Eyx. congruence.
  - rewrite String.eqb_refl.
    erewrite map_ext_in; [rewrite IH|].
    + pose proof (occurrences_fresh x l seen E). simpl in *. lia.
    + intros y Hy. apply unique_from_In in Hy as [_ Hy].
      apply mem_cons_false in Hy as [Hne _].
      apply String.eqb_neq in Hne. simpl. rewrite Hne. reflexivity.
Qed.

(** The counts of the distinct values add up to the number of values. *)
Lemma value_count_sum (col : list (option string)) :
  Pandas.sum (map snd (Pandas.value_count col)) = length (Pandas.remove_na col).
Proof.
  unfold Pandas.value_count, Pandas.unique. rewrite map_map. simpl.
  rewrite (occurrences_sum_from (Pandas.remove_na col)) by reflexivity.
  simpl. induction (Pandas.remove_na col); simpl; auto.
Qed.

Lemma sum_permutation (l l' : list nat) :
  Permutation l l' -> Pandas.sum l = Pandas.sum l'.
Proof. unfold Pandas.sum. induction 1; simpl; lia. Qed.

Lemma value_counts_sum (k : Pandas.sort_kind) (col : list (option string)) :
  Pandas.sum (map snd (Pandas.value_counts k col)) = length (Pandas.remove_na col).
Proof.
  rewrite <- value_count_sum. apply sum_permutation, Permutation_map.
  apply sort_values_desc_perm.
Qed.

(** ** Claims about the Enricher *)

(** C1 (as amended).  For every record of the loaded table, the derived
    [name_length] is the length of the text that [astype(str)] makes of its
    [name]; a missing name is coerced to the four characters None, so its
    [name_length] is 4. *)
Theorem name_length_is_text_length (df : list user) (i : nat) (u : user) :
  nth_error df i = Some u ->
  exists r, nth_error (enrich df) i = Some r /\ row r = u /\
    name_length r = PyStr.len (PyStr.astype_str (name u)) /\
    name_length r = match name u with
                    | Some s => String.length s
                    | None => 4%nat
                    end.
Proof.
  intros H. exists (enrich_row u). split; [now apply enrich_nth|].
  split; [reflexivity|]. split; [reflexivity|].
  simpl. destruct (name u); reflexivity.
Qed.

Lemma name_length_is_text_length_witness :
  exists r, nth_error (enrich [mk_user 2 (Some "Bob Bobson"%string) None None None None]) 0 = Some r /\
    row r = mk_user 2 (Some "Bob Bobson"%string) None None None None /\
    name_length r = 10%nat /\ name_length r = 10%nat.
Proof.
  exact (name_length_is_text_length
           [mk_user 2 (Some "Bob Bobson"%string) None None None None] 0 _ eq_refl).
Defined.

(** C1, the claim as stated, fails: a record whose name is missing gets
    [name_length] 4, not 0. *)
Lemma missing_name_length_not_zero :
  let u := mk_user 1 None None None None None in
  name u = None /\
  map name_length (enrich [u]) = [4%nat] /\
  map name_length (enrich [u]) <> [0%nat].
Proof. simpl. repeat split. discriminate. Qed.

(** C4.  For every record whose email holds an at-sign, [email_domain] is
    the lower-cased text after the last at-sign; for a record whose email
    holds none, or is missing, it is the absent marker. *)
Theorem email_domain_after_last_at (df : list user) (i : nat) (u : user) :
  nth_error df i = Some u ->
  exists r, nth_error (enrich df) i = Some r /\ row r = u /\
    match email u with
    | Some e =>
        if PyStr.contains "@" e
        then exists pre dom,
               e = (pre ++ String "@" dom)%string /\
               PyStr.contains "@" dom = false /\
               email_domain r = Some (PyStr.lower dom)
        else email_domain r = None
    | None => email_domain r = None
    end.
Proof.
  intros H. exists (enrich_row u). split; [now apply enrich_nth|].
  split; [reflexivity|]. simpl.
  destruct (email u) as [e|]; simpl; [|reflexivity].
  destruct (PyStr.contains "@" e) eqn:E.
  - destruct (last_sep_decomposition _ _ E) as (pre & dom & -> & Hdom).
    exists pre, dom. repeat split; [exact Hdom|].
    now apply domain_of_with_at.
  - now apply domain_of_without_at.
Qed.

Lemma email_domain_after_last_at_witness :
  exists r, nth_error (enrich [mk_user 2 None None (Some "b@Y.com"%string) None None]) 0 = Some r /\
    row r = mk_user 2 None None (Some "b@Y.com"%string) None None /\
    exists pre dom,
      "b@Y.com"%string = (pre ++ String "@" dom)%string /\
      PyStr.contains "@" dom = false /\
      email_domain r = Some (PyStr.lower dom).
Proof.
  exact (email_domain_after_last_at
           [mk_user 2 None None (Some "b@Y.com"%string) None None] 0 _ eq_refl).
Defined.

(** ** Claims about the Aggregator *)

Lemma dom_counts_keys (k : Pandas.sort_kind) (df : list enriched) (d : string) :
  In d (map fst (dom_counts k df)) <-> In (Some d) (map email_domain df).
Proof.
  unfold dom_counts, Pandas.value_counts.
  rewrite <- remove_na_In.
  assert (Hp : Permutation (map fst (Pandas.sort_values_desc k snd
                               (Pandas.value_count (map email_domain df))))
                           (Pandas.unique (Pandas.remove_na (map email_domain df)))).
  { rewrite (Permutation_map fst (sort_values_desc_perm k snd _)).
    unfold Pandas.value_count. rewrite map_map. simpl. rewrite map_id. reflexivity. }
  split; intros H.
  - apply (Permutation_in _ Hp) in H. now apply unique_from_In in H.
  - apply (Permutation_in _ (Permutation_sym Hp)), unique_from_In. now split.
Qed.

(** C2 (as amended).  The values of the per-domain count mapping add up to
    the number of records whose [email_domain] is present: together with
    the records whose domain is absent they make [total_count].  The keys
    of the mapping are exactly the present domains; records with an absent
    domain have no bucket. *)
Theorem domain_counts_sum_present (k : Pandas.sort_kind) (df : list enriched) :
  (Pandas.sum (map snd (domain_counts (aggregate k df))) + length (absent_domain df)
   = total_count (aggregate k df))%nat
  /\ forall d, In d (map fst (domain_counts (aggregate k df)))
               <-> In (Some d) (map email_domain df).
Proof.
  simpl. split; [|apply dom_counts_keys].
  unfold dom_counts. rewrite value_counts_sum.
  pose proof (remove_na_length (map email_domain df)) as H.
  rewrite length_map in H. rewrite <- H. f_equal.
  unfold absent_domain. clear H.
  induction df as [|r df IH]; simpl; [reflexivity|].
  destruct (email_domain r); simpl; now rewrite ?IH.
Qed.

(** C2, the claim as stated, fails: one record without an email is a
    non-empty input whose counts add up to 0 while [total_count] is 1. *)
Lemma absent_domain_not_counted :
  let df := enrich [mk_user 1 (Some "Ann"%string) None None None None] in
  df <> [] /\
  Pandas.sum (map snd (domain_counts (aggregate kind_stable df))) = 0%nat /\
  total_count (aggregate kind_stable df) = 1%nat /\
  Pandas.sum (map snd (domain_counts (aggregate kind_stable df)))
    <> total_count (aggregate kind_stable df).
Proof. vm_compute. repeat split; discriminate. Qed.

(** C3 (as amended).  [distinct_domain_count] is the number of distinct
    present [email_domain] values; the absent marker is never counted. *)
Theorem distinct_domain_count_present (k : Pandas.sort_kind) (df : list enriched) :
  exists ds : list string,
    NoDup ds /\
    (forall d, In d ds <-> In (Some d) (map email_domain df)) /\
    distinct_domain_count (aggregate k df) = length ds.
Proof.
  exists (Pandas.unique (Pandas.remove_na (map email_domain df))).
  split; [apply unique_from_NoDup|]. split; [|reflexivity].
  intros d. unfold Pandas.unique. rewrite unique_from_In, remove_na_In. simpl. tauto.
Qed.

(** C3, the claim as stated, fails: with one record without an email the
    unique values, the absent marker included, are one, and the code
    reports 0. *)
Lemma absent_domain_not_distinct :
  let df := enrich [mk_user 1 (Some "Ann"%string) None None None None] in
  claimed_distinct_domain_count df = 1%nat /\
  distinct_domain_count (aggregate kind_stable df) = 0%nat /\
  distinct_domain_count (aggregate kind_stable df) <> claimed_distinct_domain_count df.
Proof. vm_compute. repeat split; discriminate. Qed.



(** C9.  Aggregating zero records does not fail: [total_count] and
    [distinct_domain_count] are 0, [domain_counts] and the top list are
    empty, and mean and max of [name_length] are the no-data value (NaN). *)
Theorem aggregate_empty (k : Pandas.sort_kind) :
  aggregate k (enrich []) =
  {| total_count := 0;
     distinct_domain_count := 0;
     mean_name_length := None;
     max_name_length := None;
     domain_counts := [];
     top_n_by_name_length := [] |}.
Proof.
  unfold aggregate, dom_counts, top_names, Pandas.value_counts.
  change (enrich []) with (@nil enriched).
  change (Pandas.value_count (map email_domain [])) with (@nil (string * nat)).
  rewrite !sort_values_desc_nil. reflexivity.
Qed.

(** The end-to-end scenario of the specification, with a stable sort. *)
Example three_users :
  let v := aggregate kind_stable
             (enrich [mk_user 1 (Some "Ann"%string) None (Some "a@x.com"%string) None None;
                      mk_user 2 (Some "Bob Bobson"%string) None (Some "b@y.com"%string) None None;
                      mk_user 3 (Some "Cy"%string) None (Some "c@x.com"%string) None None]) in
  total_count v = 3%nat /\
  distinct_domain_count v = 2%nat /\
  domain_counts v = [("x.com"%string, 2%nat); ("y.com"%string, 1%nat)] /\
  max_name_length v = Some 10%nat /\
  map (fun r => (id (row r), name_length r)) (top_n_by_name_length v)
    = [(2, 10%nat); (1, 3%nat); (3, 2%nat)].
Proof. vm_compute. repeat split. Qed.

(** ** The table B-tree *)

Lemma put_In_inv (r x : user) (t : list user) :
  In x (Sqlite.put r t) -> x = r \/ In x t.
Proof.
  induction t as [|y t IH]; simpl.
  - intros [H|[]]; auto.
  - destruct (id r <? id y); [|destruct (id r =? id y)]; simpl; intuition auto.
Qed.

Lemma put_sorted (r : user) (t : list user) :
  StronglySorted by_id t -> StronglySorted by_id (Sqlite.put r t).
Proof.
  induction 1 as [|y t Hs IH Hall]; simpl.
  - repeat constructor.
  - destruct (id r <? id y) eqn:Elt; [|destruct (id r =? id y) eqn:Eeq].
    + apply Z.ltb_lt in Elt. constructor; [now constructor|].
      constructor; [exact Elt|].
      eapply Forall_impl; [|exact Hall]. unfold by_id. intros; lia.
    + apply Z.eqb_eq in Eeq. constructor; [exact Hs|].
      eapply Forall_impl; [|exact Hall]. unfold by_id. intros; lia.
    + apply Z.ltb_ge in Elt. apply Z.eqb_neq in Eeq.
      constructor; [exact IH|].
      apply Forall_forall. intros x Hx.
      apply put_In_inv in Hx as [->|Hx].
      * unfold by_id. lia.
      * rewrite Forall_forall in Hall. now apply Hall.
Qed.


Lemma put_all_sorted (users t : list user) :
  StronglySorted by_id t -> StronglySorted by_id (Sqlite.put_all users t).
Proof.
  revert t. induction users as [|u users IH]; intros t Ht; simpl; [exact Ht|].
  apply IH, put_sorted, Ht.
Qed.

(** Whatever the batch, what ends up in the table came from the batch or was
    there before. *)
Lemma put_all_In_inv (users t : list user) (x : user) :
  In x (Sqlite.put_all users t) -> In x users \/ In x t.
Proof.
  revert t. induction users as [|u users IH]; intros t; simpl; [auto|].
  intros H. apply IH in H as [H|H]; [auto|].
  apply put_In_inv in H as [->|H]; auto.
Qed.


Lemma sorted_ids_NoDup (t : list user) :
  StronglySorted by_id t -> NoDup (map id t).
Proof.
  induction 1 as [|y t _ IH Hall]; simpl; constructor; [|exact IH].
  rewrite in_map_iff. intros (x & E & Hx).
  rewrite Forall_forall in Hall. specialize (Hall x Hx). unfold by_id in Hall. lia.
Qed.

(** ** Running the storage blocks *)

Section ReliableEngine.

Variable e : env.
Hypothesis reliable : forall n, engine_fails e n = false.

Lemma for_each_insert_returns (users : list user) :
  Forall (fun u => Sqlite.int64 (id u) = true) users ->
  forall d p pg h q t,
    working p d = Some t ->
    exists p' q',
      for_each users (execute_insert e) (mk_world d (Some (mk_connection p)) pg h q)
      = (Returns tt, mk_world d (Some (mk_connection p')) pg h q')
      /\ working p' d = Some (Sqlite.put_all users t).
Proof.
  induction 1 as [|u users Hu _ IH]; intros d p pg h q t Hw.
  - exists p, q. split; [reflexivity|exact Hw].
  - destruct (IH d (Some (Sqlite.put u t)) pg h (S q) (Sqlite.put u t) eq_refl)
      as (p' & q' & Hrun & Hw').
    exists p', q'. split; [|exact Hw'].
    simpl. unfold bind at 1.
    assert (Hins : execute_insert e u (mk_world d (Some (mk_connection p)) pg h q)
                   = (Returns tt, mk_world d (Some (mk_connection (Some (Sqlite.put u t)))) pg h (S q))).
    { unfold execute_insert, bind, the_conn, engine, the_disk, set_conn, ret. simpl.
      rewrite Hu. simpl. rewrite reliable. simpl.
      unfold working in Hw. destruct p as [t'|]; simpl.
      - injection Hw as ->. reflexivity.
      - rewrite Hw. reflexivity. }
    rewrite Hins. exact Hrun.
Qed.

(** Lines 95-119 on a batch of 64-bit ids: the block returns, the file
    holds the batch inserted into the empty table, the connection is
    closed, the page and the request count are untouched. *)
Lemma replaceAll_returns (users : list user) (s : world) :
  Forall (fun u => Sqlite.int64 (id u) = true) users ->
  exists q',
    replaceAll e users s
    = (Returns tt, mk_world (Some (Sqlite.put_all users [])) None (page s) (http_calls s) q').
Proof.
  intros Hids.
  destruct (for_each_insert_returns users Hids (Some []) None (page s) (http_calls s)
              (S (S (S (sql_calls s)))) [] eq_refl) as (p' & q' & Hrun & Hw).
  unfold replaceAll, connect, execute_drop, execute_create.
  unfold bind, engine, set_conn, the_conn, set_disk, the_disk, ret. simpl.
  rewrite !reliable. simpl. rewrite !reliable. simpl. rewrite !reliable. simpl.
  rewrite Hrun.
  unfold commit, close, bind, the_conn, engine, set_disk, set_conn, ret. simpl.
  destruct p' as [t'|]; simpl in *.
  - injection Hw as ->. rewrite reliable. simpl. eexists. reflexivity.
  - injection Hw as Hw. rewrite <- Hw. eexists. reflexivity.
Qed.

(** Lines 124-126 on an existing table: the block returns its rows. *)
Lemma loadAll_returns (t : list user) (s : world) :
  disk s = Some t ->
  loadAll e s
  = (Returns t, mk_world (Some t) None (page s) (http_calls s) (S (S (sql_calls s)))).
Proof.
  intros Hd. unfold loadAll, connect, read_sql_query, close.
  unfold bind, engine, set_conn, the_conn, set_disk, the_disk, ret. simpl.
  rewrite !reliable. simpl. rewrite !reliable. simpl. rewrite Hd. reflexivity.
Qed.

End ReliableEngine.

(** ** Claims about the Repository *)



(** Without the distinctness of the ids the result still holds no id twice
    and nothing that was not in the batch: of two records with one id the
    later one replaces the earlier. *)
Lemma replaceAll_duplicate_ids (e : env) (users : list user) (s : world) :
  (forall n, engine_fails e n = false) ->
  Forall (fun u => Sqlite.int64 (id u) = true) users ->
  exists out s',
    (replaceAll e users ;; loadAll e) s = (Returns out, s') /\
    (forall r, In r out -> In r users) /\
    NoDup (map id out).
Proof.
  intros Hrel Hids.
  destruct (replaceAll_returns e Hrel users s Hids) as (q1 & H1).
  exists (Sqlite.put_all users []). eexists. split; [|split].
  - unfold bind. rewrite H1. apply (loadAll_returns e Hrel). reflexivity.
  - intros r Hr. apply put_all_In_inv in Hr as [Hr|[]]. exact Hr.
  - apply sorted_ids_NoDup, put_all_sorted. constructor.
Qed.



Example loadAll_order :
  fst ((replaceAll (mk_env No_reply (fun _ => false))
          [mk_user 3 None None None None None;
           mk_user 1 None None None None None;
           mk_user 2 None None None None None] ;;
        loadAll (mk_env No_reply (fun _ => false))) (mk_world None None [] 0 0))
  = Returns [mk_user 1 None None None None None;
             mk_user 2 None None None None None;
             mk_user 3 None None None None None].
Proof. reflexivity. Qed.

(** ** Claims about failure paths *)



Section ConnectionScope.

Variable e : env.

Lemma keeps_open_bind {A B : Type} (c : M A) (f : A -> M B) :
  keeps_open c -> (forall a, keeps_open (f a)) -> keeps_open (bind c f).
Proof.
  intros Hc Hf s Hs. unfold bind. specialize (Hc s Hs).
  destruct (c s) as [[a|h] s']; simpl in *; [now apply Hf|exact Hc].
Qed.

Lemma closes_on_return_only_bind {A : Type} (c : M A) (f : A -> M unit) :
  keeps_open c -> (forall a, closes_on_return_only (f a)) ->
  closes_on_return_only (bind c f).
Proof.
  intros Hc Hf s Hs. unfold bind. specialize (Hc s Hs).
  destruct (c s) as [[a|h] s']; simpl in *; [now apply Hf|exact Hc].
Qed.

Lemma keeps_open_the_conn : keeps_open the_conn.
Proof. intros s Hs. unfold the_conn. destruct (conn s) eqn:E; simpl; rewrite E; exact Hs. Qed.

Lemma keeps_open_engine : keeps_open (engine e).
Proof. intros s Hs. unfold engine. destruct (engine_fails e _); exact Hs. Qed.

Lemma keeps_open_set_disk d : keeps_open (set_disk d).
Proof. intros s Hs. exact Hs. Qed.

Lemma keeps_open_the_disk : keeps_open the_disk.
Proof. intros s Hs. exact Hs. Qed.

Lemma keeps_open_ret {A : Type} (a : A) : keeps_open (ret a).
Proof. intros s Hs. exact Hs. Qed.

Lemma keeps_open_raise {A : Type} (x : exn) : keeps_open (@raise A x).
Proof. intros s Hs. exact Hs. Qed.

Lemma keeps_open_set_conn c : keeps_open (set_conn (Some c)).
Proof. intros s Hs. simpl. discriminate. Qed.

Hint Resolve keeps_open_the_conn keeps_open_engine keeps_open_set_disk
  keeps_open_the_disk keeps_open_ret keeps_open_raise keeps_open_set_conn : scope.

Ltac open_scope :=
  repeat (first [ apply keeps_open_bind; [|intros ?] | solve [auto with scope] ]).

Lemma keeps_open_drop : keeps_open (execute_drop e).
Proof. unfold execute_drop. open_scope. Qed.

Lemma keeps_open_create : keeps_open (execute_create e).
Proof. unfold execute_create. open_scope. destruct a1; auto with scope. Qed.

Lemma keeps_open_insert u : keeps_open (execute_insert e u).
Proof.
  unfold execute_insert. open_scope.
  - destruct (Sqlite.int64 (id u)); auto with scope.
  - destruct (match pending a with Some t => Some t | None => a2 end); auto with scope.
Qed.

Lemma keeps_open_commit : keeps_open (commit e).
Proof. unfold commit. open_scope. destruct (pending a); open_scope. Qed.

Lemma keeps_open_for_each users : keeps_open (for_each users (execute_insert e)).
Proof.
  induction users as [|u users IH]; simpl; [apply keeps_open_ret|].
  apply keeps_open_bind; [apply keeps_open_insert|intros _; exact IH].
Qed.

Lemma closes_on_return_only_close : closes_on_return_only close.
Proof. intros s Hs. reflexivity. Qed.

(** The write scope of lines 98-119, entered with the connection open. *)
Lemma write_scope_release (users : list user) :
  closes_on_return_only
    (execute_drop e ;; execute_create e ;; for_each users (execute_insert e) ;;
     commit e ;; close).
Proof.
  apply closes_on_return_only_bind; [apply keeps_open_drop|intros _].
  apply closes_on_return_only_bind; [apply keeps_open_create|intros _].
  apply closes_on_return_only_bind; [apply keeps_open_for_each|intros _].
  apply closes_on_return_only_bind; [apply keeps_open_commit|intros _].
  apply closes_on_return_only_close.
Qed.

End ConnectionScope.

(** C8 (as amended).  replaceAll closes the connection it opened when it
    returns.  When it halts, the connection is closed only if
    [sqlite3.connect] itself failed, so that none was opened; when a storage
    operation inside the write scope raises, the run halts with the
    connection still open. *)
Theorem replaceAll_connection_release (e : env) (users : list user) (s : world) :
  match replaceAll e users s with
  | (Returns _, s') => conn s' = None
  | (Halts _, s') =>
      if engine_fails e (sql_calls s) then conn s' = conn s else conn s' <> None
  end.
Proof.
  unfold replaceAll. unfold bind at 1. unfold connect, bind at 1, engine, set_conn.
  destruct (engine_fails e (sql_calls s)) eqn:E; simpl; [reflexivity|].
  pose proof (write_scope_release e users
                (mk_world (disk s) (Some (mk_connection None)) (page s)
                          (http_calls s) (S (sql_calls s)))) as H.
  simpl in H. specialize (H ltac:(discriminate)).
  destruct (bind _ _ _) as [[[]|h] s']; exact H.
Qed.

(** C8, the claim as stated, fails: an id beyond 64 bits makes the insert
    raise OverflowError, and an engine failure at the DROP statement raises
    OperationalError; either way the run halts with the connection open. *)
Lemma replaceAll_error_leaves_connection_open :
  let s := mk_world None None [] 0 0 in
  let big := [mk_user (2 ^ 63) (Some "Ann"%string) None None None None] in
  let r1 := replaceAll (mk_env No_reply (fun _ => false)) big s in
  let r2 := replaceAll (mk_env No_reply (fun n => Nat.eqb n 1)) [] s in
  fst r1 = Halts (Uncaught OverflowError) /\ conn (snd r1) = Some (mk_connection None) /\
  fst r2 = Halts (Uncaught OperationalError) /\ conn (snd r2) = Some (mk_connection None).
Proof. vm_compute. repeat split. Qed.

(** ** The run as a whole *)

(** The fetch block returns exactly on status 200 with a body that parses. *)
Lemma fetch_error_none (r : reply) :
  fetch_error r = None <-> exists users, r = Reply 200 (Some users).
Proof.
  destruct r as [|status_code [users|]]; simpl.
  - split; [discriminate|intros [? ?]; discriminate].
  - destruct (status_code =? 200) eqn:E.
    + apply Z.eqb_eq in E. subst. split; [eauto|reflexivity].
    + apply Z.eqb_neq in E. split; [discriminate|]. intros [? H]. congruence.
  - destruct (status_code =? 200); split; try discriminate; intros [? ?]; discriminate.
Qed.

Lemma fetch_success (e : env) (users : list user) (s : world) :
  api e = Reply 200 (Some users) ->
  fetch e s
  = (Returns users, mk_world (disk s) (conn s) (page s) (S (http_calls s)) (sql_calls s)).
Proof.
  intros H. unfold fetch, try_except, bind, requests_get. rewrite H. reflexivity.
Qed.

(** A run whose fetch succeeds on a batch of 64-bit ids, with an engine
    that does not fail, reaches the last line: the table holds the batch,
    the connection is closed, and the page shows the dashboard of the
    reloaded rows. *)
Lemma run_success (k : Pandas.sort_kind) (e : env) (users : list user) (s : world) :
  (forall n, engine_fails e n = false) ->
  Forall (fun u => Sqlite.int64 (id u) = true) users ->
  api e = Reply 200 (Some users) ->
  exists q,
    run k e s
    = (Returns tt,
       mk_world (Some (Sqlite.put_all users [])) None
         (page s ++ [Header;
                     Dashboard (aggregate k (enrich (Sqlite.put_all users [])))
                               (enrich (Sqlite.put_all users []));
                     Success])
         (S (http_calls s)) q).
Proof.
  intros Hrel Hids Hapi.
  unfold run. unfold bind at 1. unfold st_write at 1.
  unfold bind at 1. rewrite (fetch_success e users _ Hapi). cbn [disk conn page http_calls sql_calls].
  unfold bind at 1.
  destruct (replaceAll_returns e Hrel users
              (mk_world (disk s) (conn s) (page s ++ [Header]) (S (http_calls s)) (sql_calls s))
              Hids) as (q1 & H1).
  rewrite H1. cbn [disk conn page http_calls sql_calls].
  unfold bind at 1. rewrite (loadAll_returns e Hrel (Sqlite.put_all users [])) by reflexivity.
  cbn [disk conn page http_calls sql_calls].
  unfold bind, st_write. cbn [disk conn page http_calls sql_calls].
  rewrite <- !app_assoc. simpl. eexists. reflexivity.
Qed.

(** * Further properties of the script *)

(** ** Enricher *)

(** The derived columns are added to the rows; the rows themselves, their
    number and their order are unchanged. *)
Theorem enrich_keeps_rows (df : list user) : map row (enrich df) = df.
Proof. rewrite enrich_rows, map_map. simpl. apply map_id. Qed.








(** ** Aggregator *)





(** The metric of distinct domains (line 150) is the number of entries of
    the per-domain counts (line 197): both leave out the missing domain. *)
Theorem distinct_count_is_number_of_buckets (k : Pandas.sort_kind) (df : list enriched) :
  distinct_domain_count (aggregate k df) = length (domain_counts (aggregate k df)).
Proof.
  simpl. unfold dom_counts, Pandas.value_counts, Pandas.nunique.
  rewrite sort_values_desc_length. unfold Pandas.value_count.
  now rewrite length_map.
Qed.

Lemma fold_max_bounds (l : list nat) (x : nat) :
  (x <= fold_left Nat.max l x)%nat /\
  Forall (fun y => (y <= fold_left Nat.max l x)%nat) l /\
  In (fold_left Nat.max l x) (x :: l).
Proof.
  revert x. induction l as [|y l IH]; intros x; simpl.
  - split; [lia|split; [constructor|now left]].
  - destruct (IH (Nat.max x y)) as (H1 & H2 & H3). split; [|split].
    + lia.
    + constructor; [lia|exact H2].
    + destruct H3 as [H3|H3]; [|now right; right].
      rewrite <- H3. destruct (Nat.max_spec x y) as [[_ ->]|[_ ->]]; auto.
Qed.

Lemma pandas_max_spec (col : list nat) (m : nat) :
  Pandas.max col = Some m -> In m col /\ Forall (fun y => (y <= m)%nat) col.
Proof.
  destruct col as [|x col]; simpl; [discriminate|].
  intros H. injection H as <-.
  destruct (fold_max_bounds col x) as (H1 & H2 & H3).
  split; [exact H3|]. constructor; assumption.
Qed.

(** The longest-name metric (line 158): on an empty table there is none;
    otherwise it is the [name_length] of some record, no record has a
    longer name, and it is the [name_length] of the first record of the
    top list (line 258). *)
Theorem max_name_length_attained (k : Pandas.sort_kind) (df : list enriched) :
  match max_name_length (aggregate k df) with
  | None => df = []
  | Some m =>
      (exists r, In r df /\ name_length r = m) /\
      (forall r, In r df -> (name_length r <= m)%nat) /\
      exists r rest, top_names k df = r :: rest /\ name_length r = m
  end.
Proof.
  simpl. destruct (Pandas.max (map name_length df)) as [m|] eqn:E.
  2:{ destruct df; [reflexivity|discriminate]. }
  apply pandas_max_spec in E as [Hin Hall].
  apply in_map_iff in Hin as (r0 & Hr0 & Hin).
  rewrite Forall_forall in Hall.
  assert (Hle : forall r, In r df -> (name_length r <= m)%nat).
  { intros r Hr. apply Hall, in_map, Hr. }
  split; [eauto|]. split; [exact Hle|].
  unfold top_names, Pandas.head.
  pose proof (sort_values_desc_sorted k name_length df) as Hs.
  pose proof (sort_values_desc_perm k name_length df) as Hp.
  destruct (Pandas.sort_values_desc k name_length df) as [|r rest].
  { apply Permutation_nil in Hp. subst df. contradiction. }
  exists r, (firstn 9 rest). split; [reflexivity|].
  apply Nat.le_antisymm.
  - apply Hle. apply (Permutation_in _ Hp). now left.
  - apply (Permutation_in _ (Permutation_sym Hp)) in Hin.
    destruct Hin as [->|Hin]; [lia|].
    apply StronglySorted_inv in Hs as [_ Hall']. rewrite Forall_forall in Hall'.
    rewrite <- Hr0. now apply Hall'.
Qed.

Lemma sum_le_max (col : list nat) (m : nat) :
  Forall (fun y => (y <= m)%nat) col -> (Pandas.sum col <= length col * m)%nat.
Proof. induction 1; simpl; lia. Qed.

Lemma quotient_le (s n m : nat) :
  n <> 0%nat -> (s <= n * m)%nat ->
  (0 <= Z.of_nat s # Pos.of_nat n)%Q /\
  (Z.of_nat s # Pos.of_nat n <= inject_Z (Z.of_nat m))%Q.
Proof.
  intros Hn Hs.
  assert (Hp : Z.pos (Pos.of_nat n) = Z.of_nat n).
  { rewrite <- positive_nat_Z, Nat2Pos.id by exact Hn. reflexivity. }
  unfold Qle. cbn [Qnum Qden inject_Z]. rewrite Hp. split; nia.
Qed.

Lemma mean_le (col : list nat) (q : Q) (m : nat) :
  Pandas.mean col = Some q ->
  Forall (fun y => (y <= m)%nat) col ->
  (0 <= q)%Q /\ (q <= inject_Z (Z.of_nat m))%Q.
Proof.
  intros Hq Hall. pose proof (sum_le_max col m Hall) as Hs.
  destruct col as [|x col]; [discriminate|].
  unfold Pandas.mean in Hq. injection Hq as <-.
  exact (quotient_le (Pandas.sum (x :: col)) (length (x :: col)) m
           (fun H => O_S _ (eq_sym H)) Hs).
Qed.

(** The mean metric (line 157) never exceeds the longest-name metric (line
    158) and is not negative; both are missing exactly on an empty table. *)
Theorem mean_at_most_max (k : Pandas.sort_kind) (df : list enriched) :
  match mean_name_length (aggregate k df), max_name_length (aggregate k df) with
  | Some q, Some m => (0 <= q)%Q /\ (q <= inject_Z (Z.of_nat m))%Q /\ df <> []
  | None, None => df = []
  | _, _ => False
  end.
Proof.
  simpl. destruct df as [|r df]; [reflexivity|].
  destruct (Pandas.mean (map name_length (r :: df))) as [q|] eqn:Eq; [|discriminate].
  destruct (Pandas.max (map name_length (r :: df))) as [m|] eqn:Em; [|discriminate].
  apply pandas_max_spec in Em as [_ Em].
  destruct (mean_le _ _ _ Eq Em) as [H0 H1].
  split; [exact H0|]. split; [exact H1|discriminate].
Qed.

(** ** Per-domain mean *)







Example avg_length_three_domains :
  avg_length (enrich [mk_user 1 (Some "Ann"%string) None (Some "a@x.com"%string) None None;
                      mk_user 2 (Some "Bob Bobson"%string) None (Some "b@Y.com"%string) None None;
                      mk_user 3 (Some "Cy"%string) None None None None;
                      mk_user 5 (Some "Eve X"%string) None (Some "e@X.com"%string) None None;
                      mk_user 4 (Some "Dee"%string) None (Some "d@a.org"%string) None None])
  = [("a.org"%string, Some (3 # 1)); ("x.com"%string, Some (8 # 2)); ("y.com"%string, Some (10 # 1))].
Proof. reflexivity. Qed.

(** ** The storage blocks under any engine behaviour *)

Section AnyEngine.

Variable e : env.

Lemma for_each_insert_cases (users : list user) :
  forall d p pg h q t,
    working p d = Some t ->
    exists p' q',
      (for_each users (execute_insert e) (mk_world d (Some (mk_connection p)) pg h q)
       = (Returns tt, mk_world d (Some (mk_connection p')) pg h q')
       /\ working p' d = Some (Sqlite.put_all users t)
       /\ Forall (fun u => Sqlite.int64 (id u) = true) users)
      \/ (exists x,
            for_each users (execute_insert e) (mk_world d (Some (mk_connection p)) pg h q)
            = (Halts (Uncaught x), mk_world d (Some (mk_connection p')) pg h q')).
Proof.
  induction users as [|u users IH]; intros d p pg h q t Hw.
  - exists p, q. left. repeat split; [exact Hw|constructor].
  - cbn [for_each]. unfold bind.
    assert (Hstep :
      execute_insert e u (mk_world d (Some (mk_connection p)) pg h q)
      = if Sqlite.int64 (id u)
        then if engine_fails e q
             then (Halts (Uncaught OperationalError),
                   mk_world d (Some (mk_connection p)) pg h (S q))
             else (Returns tt,
                   mk_world d (Some (mk_connection (Some (Sqlite.put u t)))) pg h (S q))
        else (Halts (Uncaught OverflowError),
              mk_world d (Some (mk_connection p)) pg h q)).
    { unfold execute_insert, bind, the_conn, engine, the_disk, set_conn, ret, raise. simpl.
      destruct (Sqlite.int64 (id u)); simpl; [|reflexivity].
      destruct (engine_fails e q); simpl; [reflexivity|].
      unfold working in Hw. destruct p as [t'|]; simpl.
      - injection Hw as ->. reflexivity.
      - rewrite Hw. reflexivity. }
    rewrite Hstep.
    destruct (Sqlite.int64 (id u)) eqn:Hu.
    2:{ exists p, q. right. exists OverflowError. reflexivity. }
    destruct (engine_fails e q) eqn:Hq.
    { exists p, (S q). right. exists OperationalError. reflexivity. }
    destruct (IH d (Some (Sqlite.put u t)) pg h (S q) (Sqlite.put u t) eq_refl)
      as (p' & q' & [(Hrun & Hw' & Hall)|(x & Hrun)]); exists p', q'.
    + left. repeat split; [exact Hrun|exact Hw'|]. constructor; assumption.
    + right. exists x. exact Hrun.
Qed.

(** Lines 95-119, statement by statement. *)
Lemma replaceAll_unfold (users : list user) (s : world) :
  replaceAll e users s
  = let q := sql_calls s in
    let c0 := Some (mk_connection None) in
    if engine_fails e q
    then (Halts (Uncaught OperationalError),
          mk_world (disk s) (conn s) (page s) (http_calls s) (S q))
    else if engine_fails e (S q)
    then (Halts (Uncaught OperationalError),
          mk_world (disk s) c0 (page s) (http_calls s) (S (S q)))
    else if engine_fails e (S (S q))
    then (Halts (Uncaught OperationalError),
          mk_world None c0 (page s) (http_calls s) (S (S (S q))))
    else match for_each users (execute_insert e)
                 (mk_world (Some []) c0 (page s) (http_calls s) (S (S (S q)))) with
         | (Returns _, s') => (commit e ;; close) s'
         | (Halts h, s') => (Halts h, s')
         end.
Proof.
  unfold replaceAll, connect, execute_drop, execute_create.
  unfold bind, engine, set_conn, the_conn, set_disk, the_disk, ret. simpl.
  destruct (engine_fails e (sql_calls s)); simpl; [reflexivity|].
  destruct (engine_fails e (S (sql_calls s))); simpl; [reflexivity|].
  destruct (engine_fails e (S (S (sql_calls s)))); simpl; reflexivity.
Qed.

(** How lines 95-119 can end. *)
Lemma replaceAll_cases (users : list user) (s : world) :
  exists q',
    (replaceAll e users s
     = (Returns tt, mk_world (Some (Sqlite.put_all users [])) None (page s) (http_calls s) q')
     /\ Forall (fun u => Sqlite.int64 (id u) = true) users)
    \/ exists x c d',
         replaceAll e users s
         = (Halts (Uncaught x), mk_world d' c (page s) (http_calls s) q')
         /\ (if engine_fails e (sql_calls s) then c = conn s else c <> None)
         /\ (if engine_fails e (sql_calls s) || engine_fails e (S (sql_calls s))
             then d' = disk s
             else d' = None \/ d' = Some []).
Proof.
  rewrite replaceAll_unfold. cbv zeta.
  destruct (engine_fails e (sql_calls s)) eqn:E0.
  { eexists. right. do 3 eexists. split; [reflexivity|]. split; reflexivity. }
  destruct (engine_fails e (S (sql_calls s))) eqn:E1.
  { eexists. right. do 3 eexists. split; [reflexivity|]. split; [discriminate|reflexivity]. }
  destruct (engine_fails e (S (S (sql_calls s)))) eqn:E2.
  { eexists. right. do 3 eexists. split; [reflexivity|]. split; [discriminate|now left]. }
  destruct (for_each_insert_cases users (Some []) None (page s) (http_calls s)
              (S (S (S (sql_calls s)))) [] eq_refl)
    as (p' & q' & [(Hrun & Hw & Hall)|(x & Hrun)]); rewrite Hrun.
  2:{ exists q'. right. exists x. do 2 eexists.
      split; [reflexivity|]. split; [discriminate|now right]. }
  unfold commit, close, bind, the_conn, engine, set_disk, set_conn, ret. simpl.
  destruct p' as [t'|]; simpl in *.
  - injection Hw as ->.
    destruct (engine_fails e q') eqn:E3; simpl.
    + eexists. right. do 3 eexists. split; [reflexivity|]. split; [discriminate|now right].
    + eexists. left. split; [reflexivity|exact Hall].
  - injection Hw as Hw. rewrite <- Hw. eexists. left. split; [reflexivity|exact Hall].
Qed.

(** How lines 124-126 can end. *)
Lemma loadAll_cases (s : world) :
  exists q',
    (exists t, disk s = Some t /\
       loadAll e s = (Returns t, mk_world (disk s) None (page s) (http_calls s) q'))
    \/ exists x c,
         loadAll e s = (Halts (Uncaught x), mk_world (disk s) c (page s) (http_calls s) q')
         /\ (if engine_fails e (sql_calls s) then c = conn s else c <> None).
Proof.
  unfold loadAll, connect, read_sql_query, close.
  unfold bind, engine, set_conn, the_conn, the_disk, ret, raise. simpl.
  destruct (engine_fails e (sql_calls s)) eqn:E0; simpl.
  { eexists. right. do 2 eexists. split; reflexivity. }
  destruct (engine_fails e (S (sql_calls s))) eqn:E1; simpl.
  { eexists. right. do 2 eexists. split; [reflexivity|discriminate]. }
  destruct (disk s) as [t|] eqn:Ed; simpl.
  - eexists. left. exists t. split; reflexivity.
  - eexists. right. do 2 eexists. split; [reflexivity|discriminate].
Qed.

(** How lines 81-90 can end. *)
Lemma fetch_cases (s : world) :
  (exists users, api e = Reply 200 (Some users) /\
     fetch e s = (Returns users,
                  mk_world (disk s) (conn s) (page s) (S (http_calls s)) (sql_calls s)))
  \/ exists w, fetch_error (api e) = Some w /\
       fetch e s = (Halts StopException,
                    mk_world (disk s) (conn s) (page s ++ [w]) (S (http_calls s)) (sql_calls s)).
Proof.
  unfold fetch, try_except, bind, requests_get, st_write, st_stop, response_json, raise, ret.
  unfold fetch_error.
  destruct (api e) as [|status_code json]; simpl.
  - right. eexists. split; reflexivity.
  - destruct (status_code =? 200) eqn:E; simpl.
    + apply Z.eqb_eq in E. subst status_code.
      destruct json as [users|].
      * left. exists users. split; reflexivity.
      * right. eexists. split; reflexivity.
    + right. eexists. split; reflexivity.
Qed.

End AnyEngine.

(** ** Fetcher *)

(** The fetch block hands a batch on exactly when the endpoint answers with
    status 200 and a body that parses; every other answer, any other
    success status included, ends the run. *)
Theorem fetch_returns_iff (e : env) (s : world) (users : list user) :
  (exists s', fetch e s = (Returns users, s')) <-> api e = Reply 200 (Some users).
Proof.
  split.
  - intros [s' H]. destruct (fetch_cases e s) as [(users' & Ha & Hf)|(w & _ & Hf)];
      rewrite Hf in H; [|discriminate].
    injection H as -> _. exact Ha.
  - intros H. eexists. apply fetch_success, H.
Qed.

(** ** Repository *)

(** replaceAll never leaves a part of the batch in the table, and never
    touches the page or sends a request: when it returns, all ids were
    64-bit and the table holds the batch and nothing of what it held
    before; when it halts, the table is as before, missing, or empty. *)
Theorem replaceAll_all_or_nothing (e : env) (users : list user) (s : world) :
  page (snd (replaceAll e users s)) = page s /\
  http_calls (snd (replaceAll e users s)) = http_calls s /\
  match fst (replaceAll e users s) with
  | Returns _ =>
      disk (snd (replaceAll e users s)) = Some (Sqlite.put_all users []) /\
      Forall (fun u => Sqlite.int64 (id u) = true) users
  | Halts _ =>
      disk (snd (replaceAll e users s)) = disk s \/
      disk (snd (replaceAll e users s)) = None \/
      disk (snd (replaceAll e users s)) = Some []
  end.
Proof.
  destruct (replaceAll_cases e users s) as (q' & [(H & Hall)|(x & c & d' & H & _ & Hd)]);
    rewrite H; simpl.
  - repeat split. exact Hall.
  - repeat split.
    destruct (engine_fails e (sql_calls s) || engine_fails e (S (sql_calls s))); tauto.
Qed.

(** Once the connection is open and the DROP statement has run, a
    replaceAll that halts leaves the table missing or empty: the rows
    stored before the run are gone although nothing of the batch is stored. *)
Theorem replaceAll_failure_loses_old_rows (e : env) (users : list user) (s : world) (h : halt) :
  engine_fails e (sql_calls s) = false ->
  engine_fails e (S (sql_calls s)) = false ->
  fst (replaceAll e users s) = Halts h ->
  disk (snd (replaceAll e users s)) = None \/
  disk (snd (replaceAll e users s)) = Some [].
Proof.
  intros E0 E1 Hh.
  destruct (replaceAll_cases e users s) as (q' & [(H & _)|(x & c & d' & H & _ & Hd)]);
    rewrite H in *; simpl in *; [discriminate|].
  rewrite E0, E1 in Hd. exact Hd.
Qed.

Lemma replaceAll_failure_loses_old_rows_witness :
  let old := [mk_user 1 (Some "Ann"%string) None None None None] in
  let batch := [mk_user 1 (Some "Ann"%string) None None None None;
                mk_user (2 ^ 63) (Some "Bob"%string) None None None None] in
  let e := mk_env No_reply (fun _ => false) in
  let s := mk_world (Some old) None [] 0 0 in
  disk (snd (replaceAll e batch s)) = None \/
  disk (snd (replaceAll e batch s)) = Some [].
Proof.
  exact (replaceAll_failure_loses_old_rows
           (mk_env No_reply (fun _ => false))
           [mk_user 1 (Some "Ann"%string) None None None None;
            mk_user (2 ^ 63) (Some "Bob"%string) None None None None]
           (mk_world (Some [mk_user 1 (Some "Ann"%string) None None None None]) None [] 0 0)
           (Uncaught OverflowError) eq_refl eq_refl eq_refl).
Defined.








(** loadAll only reads: whatever the engine does, the table, the page and
    the request count are as before.  It returns the rows of the table when
    there is one; when the connection was opened and the query raises, the
    connection is left open. *)
Theorem loadAll_read_only (e : env) (s : world) :
  disk (snd (loadAll e s)) = disk s /\
  page (snd (loadAll e s)) = page s /\
  http_calls (snd (loadAll e s)) = http_calls s /\
  match fst (loadAll e s) with
  | Returns t => disk s = Some t /\ conn (snd (loadAll e s)) = None
  | Halts _ =>
      if engine_fails e (sql_calls s)
      then conn (snd (loadAll e s)) = conn s
      else conn (snd (loadAll e s)) <> None
  end.
Proof.
  destruct (loadAll_cases e s) as (q' & [(t & Hd & H)|(x & c & H & Hc)]);
    rewrite H; simpl; repeat split; assumption.
Qed.

(** ** The whole run *)

Lemma run_success_witness :
  let batch := [mk_user 2 (Some "Bob"%string) None (Some "b@y.com"%string) None None;
                mk_user 1 (Some "Ann"%string) None (Some "a@x.com"%string) None None] in
  let e := mk_env (Reply 200 (Some batch)) (fun _ => false) in
  let s := mk_world None None [] 0 0 in
  exists q,
    run kind_stable e s
    = (Returns tt,
       mk_world (Some (Sqlite.put_all batch [])) None
         (page s ++ [Header;
                     Dashboard (aggregate kind_stable (enrich (Sqlite.put_all batch [])))
                               (enrich (Sqlite.put_all batch []));
                     Success])
         (S (http_calls s)) q).
Proof.
  apply run_success.
  - intros n. reflexivity.
  - repeat constructor.
  - reflexivity.
Defined.



